(** * Loadout optimizer: per-bucket item filtering ([filterItems])

    A shallow embedding of [filterItems] (the item filter of the loadout
    builder) and the properties of its priority cascade: pinned item, locked
    exotic, the "no exotic" sentinel, exclusion, mod feasibility and the
    search filter with its fallback.

    JavaScript objects used as maps ([items], [pinnedItems], [excludedItems],
    the result, the lodash [groupBy] table) are finite maps; arrays are lists;
    [undefined] is [None]. *)

From Stdlib Require Import ZArith List Bool String.
From stdpp Require Import gmap list strings.

Import ListNotations.
Local Open Scope Z_scope.

(** ** Data model *)

(** The five keys of the object literal that initialises [filteredItems]:
    the type [LockableBucketHash]. *)
Inductive LockableBucketHash : Set :=
  | Helmet
  | Gauntlets
  | ChestArmor
  | LegArmor
  | ClassArmor.

#[global] Instance LockableBucketHash_eq_dec : EqDecision LockableBucketHash.
Proof. solve_decision. Defined.

Definition bucket_index (b : LockableBucketHash) : nat :=
  match b with
  | Helmet => 0
  | Gauntlets => 1
  | ChestArmor => 2
  | LegArmor => 3
  | ClassArmor => 4
  end%nat.

Definition bucket_of_index (n : nat) : LockableBucketHash :=
  match n with
  | 0 => Helmet
  | 1 => Gauntlets
  | 2 => ChestArmor
  | 3 => LegArmor
  | _ => ClassArmor
  end%nat.

#[global] Instance LockableBucketHash_countable : Countable LockableBucketHash.
Proof.
  apply (inj_countable' bucket_index bucket_of_index).
  intros []; reflexivity.
Defined.

(** Modelled from the spec: the constant [LockableBucketHashes] of [./types]
    is not part of the sources; the spec calls it the fixed enumeration of
    slots, which are the five keys above. *)
Definition LockableBucketHashes : list LockableBucketHash :=
  [Helmet; Gauntlets; ChestArmor; LegArmor; ClassArmor].

(** The fields of [DimItem] that [filterItems] reads: [item.id] (a string),
    [item.hash] (a manifest hash, an integer) and [item.isExotic]. *)
Record DimItem : Set := mkDimItem {
  item_id : string;
  item_hash : Z;
  isExotic : bool;
}.

#[global] Instance DimItem_eq_dec : EqDecision DimItem.
Proof. solve_decision. Defined.

(** [mod.plug.plugCategoryHash] is the only part of a mod that is read. *)
Record DestinyItemPlugDefinition : Set := mkPlug {
  plugCategoryHash : Z;
}.

Record PluggableInventoryItemDefinition : Set := mkMod {
  mod_hash : Z;
  plug : DestinyItemPlugDefinition;
}.

(** The result of [assignBucketSpecificMods]; only [unassigned] is looked at. *)
Record ModAssignment : Set := mkModAssignment {
  unassigned : list PluggableInventoryItemDefinition;
}.

(** What the module imports and does not define: the opaque types of the
    manifest and of the two energy settings, the two constants of [./types],
    the table [bucketHashToPlugCategoryHash], and [assignBucketSpecificMods],
    whose named arguments are taken in the order of the call
    ([assumeArmorMasterwork], [lockArmorEnergyType], [minItemEnergy], [item],
    [modsToAssign]). *)
Class Imports : Type := {
  D2ManifestDefinitions : Type;
  LockArmorEnergyType : Type;
  AssumeArmorMasterwork : Type;
  LOCKED_EXOTIC_NO_EXOTIC : Z;
  MIN_LO_ITEM_ENERGY : Z;
  bucketHashToPlugCategoryHash : LockableBucketHash -> Z;
  assignBucketSpecificMods :
    option AssumeArmorMasterwork -> option LockArmorEnergyType -> Z ->
    DimItem -> list PluggableInventoryItemDefinition -> ModAssignment;
}.

(** [ItemsByBucket], [PinnedItems], [ExcludedItems]: objects indexed by bucket
    hash; a missing key reads as [undefined]. *)
Abbreviation ItemsByBucket := (gmap LockableBucketHash (list DimItem)).
Abbreviation PinnedItems := (gmap LockableBucketHash DimItem).
Abbreviation ExcludedItems := (gmap LockableBucketHash (list DimItem)).

(** [ItemFilter]: a predicate on items. *)
Abbreviation ItemFilter := (DimItem -> bool).

(** The destructured argument of [filterItems]. *)
Record FilterItemsArgs `{Imports} : Type := mkArgs {
  defs : option D2ManifestDefinitions;
  items : option ItemsByBucket;
  pinnedItems : PinnedItems;
  excludedItems : ExcludedItems;
  lockedMods : list PluggableInventoryItemDefinition;
  lockedExoticHash : option Z;
  lockArmorEnergyType : option LockArmorEnergyType;
  assumeArmorMasterwork : option AssumeArmorMasterwork;
  searchFilter : ItemFilter;
}.

(** ** The code *)

(** lodash [_.groupBy]: elements are appended to the array of their key in
    the order of the collection; a key is created at its first element. *)
Definition groupBy {A : Type} (key : A -> Z) (l : list A) : gmap Z (list A) :=
  foldl (fun acc x => <[key x := default [] (acc !! key x) ++ [x]]> acc) ∅ l.

(** [h === lockedExoticHash] for a number [h], with [lockedExoticHash]
    possibly [undefined]: the test of [item.hash] at line 66 and of
    [LOCKED_EXOTIC_NO_EXOTIC] at line 76. *)
Definition hash_is (lockedExoticHash : option Z) (h : Z) : bool :=
  match lockedExoticHash with
  | Some l => h =? l
  | None => false
  end.

Section FilterItems.
Context `{Imports}.

(** The initial value of [filteredItems]. *)
Definition noItems : ItemsByBucket :=
  <[Helmet := []]> (<[Gauntlets := []]> (<[ChestArmor := []]>
    (<[LegArmor := []]> (<[ClassArmor := []]> ∅)))).

Definition lockedModMap (a : FilterItemsArgs) :
    gmap Z (list PluggableInventoryItemDefinition) :=
  groupBy (fun lockedMod => plugCategoryHash (plug lockedMod)) (lockedMods a).

(** [lockedModMap[bucketHashToPlugCategoryHash[bucket]] || []] *)
Definition lockedModsForPlugCategoryHash (a : FilterItemsArgs)
    (bucket : LockableBucketHash) : list PluggableInventoryItemDefinition :=
  default [] (lockedModMap a !! bucketHashToPlugCategoryHash bucket).

Definition exotics (a : FilterItemsArgs) (bucketItems : list DimItem) :
    list DimItem :=
  List.filter (fun item => hash_is (lockedExoticHash a) (item_hash item))
    bucketItems.

(** Lines 70-78: pinned item, then locked exotic, then the sentinel. *)
Definition firstPassFilteredItems (a : FilterItemsArgs)
    (bucket : LockableBucketHash) (bucketItems : list DimItem) :
    list DimItem :=
  match pinnedItems a !! bucket with
  | Some pinnedItem => [pinnedItem]
  | None =>
      if (0 <? length (exotics a bucketItems))%nat then exotics a bucketItems
      else if hash_is (lockedExoticHash a) LOCKED_EXOTIC_NO_EXOTIC
      then List.filter (fun i => negb (isExotic i)) bucketItems
      else bucketItems
  end.

(** [excludedItems[bucket]?.some((excluded) => item.id === excluded.id)];
    [undefined] when the bucket has no entry, which [!] turns into [true]. *)
Definition isExcluded (a : FilterItemsArgs) (bucket : LockableBucketHash)
    (item : DimItem) : bool :=
  match excludedItems a !! bucket with
  | Some l =>
      existsb (fun excluded => String.eqb (item_id item) (item_id excluded)) l
  | None => false
  end.

(** The call of [assignBucketSpecificMods] at lines 89-95. *)
Definition modAssignment (a : FilterItemsArgs) (bucket : LockableBucketHash)
    (item : DimItem) : ModAssignment :=
  assignBucketSpecificMods (assumeArmorMasterwork a) (lockArmorEnergyType a)
    MIN_LO_ITEM_ENERGY item (lockedModsForPlugCategoryHash a bucket).

Definition canTakeMods (a : FilterItemsArgs) (bucket : LockableBucketHash)
    (item : DimItem) : bool :=
  (length (unassigned (modAssignment a bucket item)) =? 0)%nat.

(** Lines 86-96. *)
Definition excludedAndModsFilteredItems (a : FilterItemsArgs)
    (bucket : LockableBucketHash) (bucketItems : list DimItem) :
    list DimItem :=
  List.filter
    (fun item => negb (isExcluded a bucket item) && canTakeMods a bucket item)
    (firstPassFilteredItems a bucket bucketItems).

Definition searchFilteredItems (a : FilterItemsArgs)
    (bucket : LockableBucketHash) (bucketItems : list DimItem) :
    list DimItem :=
  List.filter (searchFilter a)
    (excludedAndModsFilteredItems a bucket bucketItems).

(** Lines 100-102: the value stored in [filteredItems[bucket]]. *)
Definition bucketResult (a : FilterItemsArgs) (bucket : LockableBucketHash)
    (bucketItems : list DimItem) : list DimItem :=
  if (0 <? length (searchFilteredItems a bucket bucketItems))%nat
  then searchFilteredItems a bucket bucketItems
  else excludedAndModsFilteredItems a bucket bucketItems.

(** One iteration of the loop over [LockableBucketHashes]. *)
Definition filterBucket (a : FilterItemsArgs) (its : ItemsByBucket)
    (filteredItems : ItemsByBucket) (bucket : LockableBucketHash) :
    ItemsByBucket :=
  match its !! bucket with
  | Some bucketItems =>
      <[bucket := bucketResult a bucket bucketItems]> filteredItems
  | None => filteredItems
  end.

Definition filterItems (a : FilterItemsArgs) : ItemsByBucket :=
  match items a, defs a with
  | Some its, Some _ => foldl (filterBucket a its) noItems LockableBucketHashes
  | _, _ => noItems
  end.

End FilterItems.

(** ** Sample data

    Concrete collaborators and items on which the definitions above are run. *)

(** The oracle of the samples: the item ["h3"] has no room for any mod, every
    other item takes them all. *)
Definition sampleImports : Imports := {|
  D2ManifestDefinitions := unit;
  LockArmorEnergyType := unit;
  AssumeArmorMasterwork := unit;
  LOCKED_EXOTIC_NO_EXOTIC := -1;
  MIN_LO_ITEM_ENERGY := 7;
  bucketHashToPlugCategoryHash := fun b => Z.of_nat (bucket_index b) + 10;
  assignBucketSpecificMods := fun _ _ _ item modsToAssign =>
    if String.eqb (item_id item) "h3" then mkModAssignment modsToAssign
    else mkModAssignment [];
|}.

Definition helmet1 : DimItem := mkDimItem "h1" 100 true.
Definition helmet2 : DimItem := mkDimItem "h2" 200 false.
Definition helmet3 : DimItem := mkDimItem "h3" 300 false.
Definition exotic1 : DimItem := mkDimItem "x1" 100 true.
Definition exotic2 : DimItem := mkDimItem "x2" 100 true.
Definition gauntlets1 : DimItem := mkDimItem "g1" 400 false.

Definition helmetMod : PluggableInventoryItemDefinition :=
  mkMod 900 (mkPlug 10).
Definition armsMod : PluggableInventoryItemDefinition :=
  mkMod 901 (mkPlug 11).

Definition sampleArgs (its : option ItemsByBucket) (pinned : PinnedItems)
    (excluded : ExcludedItems) (mods : list PluggableInventoryItemDefinition)
    (exotic : option Z) (search : ItemFilter) :
    @FilterItemsArgs sampleImports :=
  @mkArgs sampleImports (Some tt) its pinned excluded mods exotic None None
    search.

Definition anyItem : ItemFilter := fun _ => true.
Definition noItem : ItemFilter := fun _ => false.
Definition onlyId (s : string) : ItemFilter :=
  fun i => String.eqb (item_id i) s.

Definition helmets (l : list DimItem) : ItemsByBucket := <[Helmet := l]> ∅.

Definition threeHelmets : list DimItem := [helmet1; helmet2; helmet3].
Definition withCopies : list DimItem := [helmet2; exotic1; helmet3; exotic2].
Definition shortCopies : list DimItem := [helmet2; exotic1; exotic2].

(** The example scenario of the specification (section 8). *)
Definition scenarioArgs : @FilterItemsArgs sampleImports :=
  sampleArgs (Some (helmets threeHelmets)) ∅ ∅ [] (Some (-1)) anyItem.

(** A pinned helmet that is also excluded. *)
Definition pinnedExcludedArgs : @FilterItemsArgs sampleImports :=
  sampleArgs (Some (helmets [helmet1; helmet2])) (<[Helmet := helmet2]> ∅)
    (<[Helmet := [helmet2]]> ∅) [] None anyItem.

(** A pinned helmet that cannot take the locked helmet mod. *)
Definition pinnedInfeasibleArgs : @FilterItemsArgs sampleImports :=
  sampleArgs (Some (helmets [helmet2; helmet3])) (<[Helmet := helmet3]> ∅) ∅
    [armsMod; helmetMod] None anyItem.

(** A pinned helmet that the search filter rejects. *)
Definition pinnedUnsearchedArgs : @FilterItemsArgs sampleImports :=
  sampleArgs (Some (helmets [helmet1; helmet2])) (<[Helmet := helmet2]> ∅) ∅
    [helmetMod] (Some 100) noItem.

(** No catalog at all. *)
Definition noCatalogArgs : @FilterItemsArgs sampleImports :=
  sampleArgs None (<[Helmet := helmet2]> ∅) ∅ [helmetMod] None anyItem.

(** Two copies of the locked exotic, the second one excluded. *)
Definition exoticCopiesArgs : @FilterItemsArgs sampleImports :=
  sampleArgs (Some (helmets withCopies)) ∅ (<[Helmet := [exotic2]]> ∅) []
    (Some 100) anyItem.

(** Both copies of the locked exotic excluded. *)
Definition exoticGoneArgs : @FilterItemsArgs sampleImports :=
  sampleArgs (Some (helmets shortCopies)) ∅
    (<[Helmet := [exotic2; exotic1]]> ∅) [] (Some 100) anyItem.

(** A pin on gauntlets while the catalog only has helmets. *)
Definition pinnedAbsentArgs : @FilterItemsArgs sampleImports :=
  sampleArgs (Some (helmets [helmet1; helmet2])) (<[Gauntlets := gauntlets1]> ∅)
    ∅ [] None anyItem.

(** A helmet mod locked; the search filter keeps one item or none. *)
Definition searchArgs (search : ItemFilter) : @FilterItemsArgs sampleImports :=
  sampleArgs (Some (helmets threeHelmets)) ∅ ∅ [armsMod; helmetMod] None
    search.

(** ** Calls that differ in one argument *)

(** The same call on another catalog. *)
Definition withItems `{Imports} (a : FilterItemsArgs)
    (its : option ItemsByBucket) : FilterItemsArgs :=
  @mkArgs _ (defs a) its (pinnedItems a) (excludedItems a) (lockedMods a)
    (lockedExoticHash a) (lockArmorEnergyType a) (assumeArmorMasterwork a)
    (searchFilter a).

(** The same call with another search filter. *)
Definition withSearchFilter `{Imports} (a : FilterItemsArgs)
    (search : ItemFilter) : FilterItemsArgs :=
  @mkArgs _ (defs a) (items a) (pinnedItems a) (excludedItems a) (lockedMods a)
    (lockedExoticHash a) (lockArmorEnergyType a) (assumeArmorMasterwork a)
    search.

(** A call whose result is fed back as the catalog of the same call. *)
Definition refilter `{Imports} (a : FilterItemsArgs) : FilterItemsArgs :=
  withItems a (Some (filterItems a)).

(** The exotic lock names an exotic that only sits in another bucket. *)
Definition lockElsewhereArgs : @FilterItemsArgs sampleImports :=
  sampleArgs (Some (helmets threeHelmets)) ∅ ∅ [] (Some 555) anyItem.

(** No constraint at all. *)
Definition freeArgs : @FilterItemsArgs sampleImports :=
  sampleArgs (Some (helmets threeHelmets)) ∅ ∅ [] None anyItem.

(** The two copies of the locked exotic again, with other buckets filled,
    pinned and excluded. *)
Definition crowdedArgs : @FilterItemsArgs sampleImports :=
  sampleArgs
    (Some (<[Gauntlets := [gauntlets1]]> (helmets withCopies)))
    (<[Gauntlets := gauntlets1]> ∅)
    (<[ChestArmor := [helmet2]]> (<[Helmet := [exotic2]]> ∅))
    [] (Some 100) anyItem.

(** ** The press tip ([PressTip.tsx])

    The part of the component that decides when the tooltip is open: the
    module constants of lines 119-122, the handlers [closeToolTip] and [hover]
    with the timer they share (lines 145-171), the native [touchstart]
    listener (lines 186-193) and the table of event props (lines 195-224).
    [absorbClick], which subtracts two clock readings, and the rendering of
    [Control] are left out. *)

Module PressTip.

(** The three properties of [window] read when the module is loaded.
    [hoverable] is [undefined] when [window.matchMedia] does not exist. *)
Record Device : Set := mkDevice {
  isPointerEvents : bool;
  isTouch : bool;
  hoverable : option bool;
}.

(** Truthiness of a [boolean | undefined]. *)
Definition truthy (v : option bool) : bool :=
  match v with
  | Some true => true
  | _ => false
  end.

Definition hoverDelay (dev : Device) : Z :=
  if truthy (hoverable dev) then 100 else 300.

(** The three callbacks that are bound to events. *)
Inductive Handler : Set :=
  | hover
  | closeToolTip
  | absorbClick.

#[global] Instance Handler_eq_dec : EqDecision Handler.
Proof. solve_decision. Defined.

(** Lines 195-224: the object of event props, by prop name. *)
Definition events (dev : Device) : gmap string Handler :=
  if isPointerEvents dev then
    if truthy (hoverable dev) then
      <["onPointerOver" := hover]> (<["onPointerLeave" := closeToolTip]>
        (<["onPointerUp" := closeToolTip]> ∅))
    else
      <["onPointerOver" := hover]> (<["onPointerDown" := hover]>
        (<["onPointerLeave" := closeToolTip]> (<["onPointerUp" := closeToolTip]>
          (<["onClick" := absorbClick]> ∅))))
  else if isTouch dev then
    <["onTouchEnd" := closeToolTip]> (<["onTouchCancel" := closeToolTip]>
      (<["onClick" := absorbClick]> ∅))
  else
    <["onMouseEnter" := hover]> (<["onMouseUp" := closeToolTip]>
      (<["onMouseLeave" := closeToolTip]> ∅)).

(** Lines 186-193: whether the effect adds [hover] as a native [touchstart]
    listener; [refCurrent] tells whether [ref.current] is an element. *)
Definition listensTouchStart (dev : Device) (refCurrent : bool) : bool :=
  negb (isPointerEvents dev) && isTouch dev && refCurrent.

Section Timer.

(** Readings of [performance.now()], and the number [0] among them. *)
Variable Time : Type.
Variable time0 : Time.

(** The state that the handlers share: the [open] state of [useState], the
    refs [timer] and [touchStartTime], and the timers of the browser that the
    component has set and that have neither run nor been cleared, with their
    delay. The callback of every one of them is [() => setOpen(true)]. *)
Record State : Type := mkState {
  open : bool;
  timer : Z;
  touchStartTime : Time;
  pending : gmap Z Z;
}.

(** [clearTimeout(id)]; an id that is not pending is ignored. *)
Definition clearTimeout (id : Z) (timers : gmap Z Z) : gmap Z Z :=
  delete id timers.

(** What happens to the component. [Hover id now] is a call of [hover] in
    which [window.setTimeout] returns [id] and [performance.now()] returns
    [now]; [TimerFires id] is the browser running the callback of timer [id];
    [Unmount] is the cleanup of the effect of line 171. *)
Inductive Event : Type :=
  | Hover (id : Z) (now : Time)
  | CloseToolTip
  | TimerFires (id : Z)
  | Unmount.

Definition isHover (e : Event) : bool :=
  match e with
  | Hover _ _ => true
  | _ => false
  end.

(** The state on mount: [useState(false)], [useRef(0)], [useRef(0)]. *)
Definition mounted : State := mkState false 0 time0 ∅.

Definition handle (dev : Device) (s : State) (e : Event) : State :=
  match e with
  | Hover id now =>
      (* clearTimeout(timer.current); timer.current = setTimeout(...);
         touchStartTime.current = performance.now() *)
      mkState (open s) id now
        (<[id := hoverDelay dev]> (clearTimeout (timer s) (pending s)))
  | CloseToolTip =>
      (* setOpen(false); clearTimeout(timer.current); timer.current = 0 *)
      mkState false 0 (touchStartTime s) (clearTimeout (timer s) (pending s))
  | TimerFires id =>
      match pending s !! id with
      | Some _ =>
          (* the timer leaves the browser's list, then setOpen(true) *)
          mkState true (timer s) (touchStartTime s) (delete id (pending s))
      | None => s
      end
  | Unmount =>
      mkState (open s) (timer s) (touchStartTime s)
        (clearTimeout (timer s) (pending s))
  end.

Definition run (dev : Device) (s : State) (es : list Event) : State :=
  foldl (handle dev) s es.

(** Every timer that is still pending is the one in [timer.current], and its
    delay is the hover delay of the device. *)
Definition single_pending (dev : Device) (s : State) : Prop :=
  forall id delay,
    pending s !! id = Some delay -> id = timer s /\ delay = hoverDelay dev.

End Timer.

Arguments mkState {Time} open timer touchStartTime pending.
Arguments open {Time} s.
Arguments timer {Time} s.
Arguments touchStartTime {Time} s.
Arguments pending {Time} s.
Arguments Hover {Time} id now.
Arguments CloseToolTip {Time}.
Arguments TimerFires {Time} id.
Arguments Unmount {Time}.
Arguments isHover {Time} e.
Arguments mounted {Time} time0.
Arguments handle {Time} dev s e.
Arguments run {Time} dev s es.
Arguments single_pending {Time} dev s.

End PressTip.

(** A touch screen with pointer events, and a phone browser without them. *)
Definition touchPointerDevice : PressTip.Device :=
  PressTip.mkDevice true true (Some false).
Definition touchOnlyDevice : PressTip.Device :=
  PressTip.mkDevice false true None.

(** ** Facts about the building blocks *)

Lemma filter_sublist {A : Type} (p : A -> bool) (l : list A) :
  sublist (List.filter p l) l.
Proof.
  induction l as [|x l IH]; simpl.
  - constructor.
  - destruct (p x); [apply sublist_skip | apply sublist_cons]; exact IH.
Qed.

Lemma filter_none {A : Type} (p : A -> bool) (l : list A) :
  (forall x, In x l -> p x = false) -> List.filter p l = [].
Proof.
  induction l as [|x l IH]; simpl; intros Hall; [reflexivity|].
  rewrite (Hall x) by (left; reflexivity).
  apply IH. intros y Hy. apply Hall. right. exact Hy.
Qed.

Lemma filter_nonempty {A : Type} (p : A -> bool) (l : list A) (x : A) :
  In x l -> p x = true -> List.filter p l <> [].
Proof.
  intros Hin Hp Hnil.
  assert (Hx : In x (List.filter p l)) by (apply List.filter_In; auto).
  rewrite Hnil in Hx. destruct Hx.
Qed.

Lemma length_pos_nonempty {A : Type} (l : list A) :
  (0 <? length l)%nat = true <-> l <> [].
Proof.
  destruct l; simpl; split; intros Hl; try congruence; try reflexivity.
  discriminate.
Qed.

Lemma length_zero_empty {A : Type} (l : list A) :
  (length l =? 0)%nat = true <-> l = [].
Proof. destruct l; simpl; split; intros Hl; congruence. Qed.

(** [groupBy] keeps, under each key, the elements of that key in the order of
    the collection. *)
Lemma groupBy_snoc {A : Type} (key : A -> Z) (l : list A) (x : A) :
  groupBy key (l ++ [x]) =
  <[key x := default [] (groupBy key l !! key x) ++ [x]]> (groupBy key l).
Proof. unfold groupBy. rewrite foldl_app. reflexivity. Qed.

Lemma groupBy_lookup {A : Type} (key : A -> Z) (l : list A) (k : Z) :
  default [] (groupBy key l !! k) = List.filter (fun x => key x =? k) l.
Proof.
  induction l as [|x l IH] using rev_ind.
  - reflexivity.
  - rewrite groupBy_snoc, List.filter_app. simpl.
    destruct (Z.eqb_spec (key x) k) as [Heq|Hne].
    + subst k. rewrite lookup_insert_eq. simpl. rewrite IH. reflexivity.
    + rewrite lookup_insert_ne by exact Hne. rewrite IH, app_nil_r. reflexivity.
Qed.

Section FilterItemsFacts.
Context `{Imports}.
Implicit Types (a : FilterItemsArgs) (b : LockableBucketHash).
Implicit Types (bucketItems out : list DimItem) (its : ItemsByBucket).

Lemma noItems_lookup b : noItems !! b = Some [].
Proof. destruct b; reflexivity. Qed.

(** The mods handed to the oracle for a bucket are the locked mods of that
    bucket's plug category, in the order they were locked. *)
Lemma lockedModsForPlugCategoryHash_filter a b :
  lockedModsForPlugCategoryHash a b =
  List.filter
    (fun m => plugCategoryHash (plug m) =? bucketHashToPlugCategoryHash b)
    (lockedMods a).
Proof. apply groupBy_lookup. Qed.

(** What the loop leaves under each key. *)
Lemma filterItems_lookup a its b :
  items a = Some its -> is_Some (defs a) ->
  filterItems a !! b =
  Some (match its !! b with
        | Some bucketItems => bucketResult a b bucketItems
        | None => []
        end).
Proof.
  intros Hits [d Hd]. unfold filterItems. rewrite Hits, Hd.
  unfold LockableBucketHashes. cbn [foldl]. unfold filterBucket.
  destruct b;
    repeat match goal with
           | |- context [match its !! ?k with _ => _ end] =>
               destruct (its !! k)
           end;
    rewrite ?lookup_insert_eq, ?lookup_insert_ne by discriminate;
    rewrite ?lookup_insert_eq, ?lookup_insert_ne by discriminate;
    try reflexivity; apply noItems_lookup.
Qed.

Lemma filterItems_degenerate a b :
  items a = None \/ defs a = None -> filterItems a !! b = Some [].
Proof.
  intros Hnone. unfold filterItems.
  destruct (items a), (defs a); try apply noItems_lookup.
  destruct Hnone; discriminate.
Qed.

Lemma bucketResult_cases a b bucketItems :
  (searchFilteredItems a b bucketItems <> [] /\
   bucketResult a b bucketItems = searchFilteredItems a b bucketItems) \/
  (searchFilteredItems a b bucketItems = [] /\
   bucketResult a b bucketItems = excludedAndModsFilteredItems a b bucketItems).
Proof.
  unfold bucketResult.
  destruct (searchFilteredItems a b bucketItems); simpl; [right | left];
    split; (reflexivity || discriminate).
Qed.

Lemma bucketResult_sublist a b bucketItems :
  sublist (bucketResult a b bucketItems)
    (excludedAndModsFilteredItems a b bucketItems).
Proof.
  destruct (bucketResult_cases a b bucketItems) as [[_ ->]|[_ ->]].
  - apply filter_sublist.
  - reflexivity.
Qed.

Lemma bucketResult_In a b bucketItems x :
  In x (bucketResult a b bucketItems) ->
  In x (firstPassFilteredItems a b bucketItems) /\
  isExcluded a b x = false /\ canTakeMods a b x = true.
Proof.
  intros Hin.
  assert (Hx : In x (excludedAndModsFilteredItems a b bucketItems)).
  { apply list_elem_of_In.
    apply (sublist_subseteq _ _ (bucketResult_sublist a b bucketItems)).
    apply list_elem_of_In. exact Hin. }
  apply List.filter_In in Hx. destruct Hx as [Hfirst Hkeep].
  apply andb_true_iff in Hkeep. destruct Hkeep as [Hex Hmods].
  apply negb_true_iff in Hex. auto.
Qed.

Lemma canTakeMods_unassigned a b x :
  canTakeMods a b x = true <-> unassigned (modAssignment a b x) = [].
Proof. apply length_zero_empty. Qed.

(** With a pin the first pass is the pinned item alone. *)
Lemma firstPass_pinned a b bucketItems P :
  pinnedItems a !! b = Some P -> firstPassFilteredItems a b bucketItems = [P].
Proof.
  intros Hpin. unfold firstPassFilteredItems. rewrite Hpin. reflexivity.
Qed.

Lemma exotics_locked a bucketItems h :
  lockedExoticHash a = Some h ->
  exotics a bucketItems = List.filter (fun i => item_hash i =? h) bucketItems.
Proof. intros Hl. unfold exotics. rewrite Hl. reflexivity. Qed.

(** Without a pin and with a copy of the locked exotic in the bucket, the
    first pass is the copies. *)
Lemma firstPass_exotics a b bucketItems :
  pinnedItems a !! b = None -> exotics a bucketItems <> [] ->
  firstPassFilteredItems a b bucketItems = exotics a bucketItems.
Proof.
  intros Hpin Hex. unfold firstPassFilteredItems. rewrite Hpin.
  apply length_pos_nonempty in Hex. rewrite Hex. reflexivity.
Qed.

Lemma firstPass_sublist a b bucketItems :
  pinnedItems a !! b = None ->
  sublist (firstPassFilteredItems a b bucketItems) bucketItems.
Proof.
  intros Hpin. unfold firstPassFilteredItems. rewrite Hpin.
  destruct (0 <? length (exotics a bucketItems))%nat.
  - apply filter_sublist.
  - destruct (hash_is (lockedExoticHash a) LOCKED_EXOTIC_NO_EXOTIC).
    + apply filter_sublist.
    + reflexivity.
Qed.

End FilterItemsFacts.

(** ** Properties of [filterItems] *)

(** Counterexample to C1 as stated. On the sample with a pinned and excluded
    helmet, the bucket has a pinned
    item and a catalog entry, and the output is not the pinned item alone:
    the exclusion filter of lines 86-96 runs on the pinned item too. *)
Lemma pin_not_absolute :
  items pinnedExcludedArgs = Some (helmets [helmet1; helmet2]) /\
  defs pinnedExcludedArgs = Some tt /\
  helmets [helmet1; helmet2] !! Helmet = Some [helmet1; helmet2] /\
  pinnedItems pinnedExcludedArgs !! Helmet = Some helmet2 /\
  @filterItems sampleImports pinnedExcludedArgs !! Helmet <> Some [helmet2].
Proof. repeat split; try reflexivity. vm_compute. discriminate. Qed.

(** The same for a pinned item on which the oracle leaves a mod unassigned. *)
Example pinned_infeasible_dropped :
  pinnedItems pinnedInfeasibleArgs !! Helmet = Some helmet3 /\
  @filterItems sampleImports pinnedInfeasibleArgs !! Helmet = Some [].
Proof. split; reflexivity. Qed.

(** C1 (amended). With catalog and manifest present, a bucket of the catalog
    that has a pinned item P yields [P] when P is not excluded and the oracle
    leaves no mod unassigned on it, and the empty sequence otherwise; the
    bucket's catalog items, the exotic lock and the search filter (even one
    that rejects P) have no influence. *)
Theorem pinned_bucket_output `{Imports} (a : FilterItemsArgs)
    (its : ItemsByBucket) (d : D2ManifestDefinitions) (b : LockableBucketHash)
    (bucketItems : list DimItem) (P : DimItem) :
  items a = Some its -> defs a = Some d ->
  its !! b = Some bucketItems ->
  pinnedItems a !! b = Some P ->
  filterItems a !! b =
  Some (if negb (isExcluded a b P) && canTakeMods a b P then [P] else []).
Proof.
  intros Hits Hd Hb Hpin.
  rewrite (filterItems_lookup a its b Hits) by (rewrite Hd; eauto).
  rewrite Hb. f_equal.
  unfold bucketResult, searchFilteredItems, excludedAndModsFilteredItems.
  rewrite (firstPass_pinned a b bucketItems P Hpin). simpl.
  destruct (negb (isExcluded a b P) && canTakeMods a b P); simpl.
  - destruct (searchFilter a P); reflexivity.
  - reflexivity.
Qed.

Lemma pinned_bucket_output_witness :
  @filterItems sampleImports pinnedUnsearchedArgs !! Helmet = Some [helmet2].
Proof.
  apply (@pinned_bucket_output sampleImports pinnedUnsearchedArgs
           (helmets [helmet1; helmet2]) tt Helmet [helmet1; helmet2] helmet2);
    reflexivity.
Defined.

(** C2. The result binds every bucket of the enumeration to a sequence, and
    without a catalog or without the manifest every bucket is bound to the
    empty sequence. *)
Theorem filterItems_total `{Imports} (a : FilterItemsArgs) :
  (forall b : LockableBucketHash,
      In b LockableBucketHashes /\
      exists out : list DimItem, filterItems a !! b = Some out) /\
  (items a = None \/ defs a = None ->
   forall b : LockableBucketHash, filterItems a !! b = Some []).
Proof.
  split.
  - intros b. split.
    + destruct b; simpl; tauto.
    + destruct (items a) as [its|] eqn:Hits;
        [destruct (defs a) as [d|] eqn:Hd|].
      * rewrite (filterItems_lookup a its b Hits) by (rewrite Hd; eauto). eauto.
      * exists []. apply filterItems_degenerate. right. exact Hd.
      * exists []. apply filterItems_degenerate. left. exact Hits.
  - intros Hnone b. apply filterItems_degenerate. exact Hnone.
Qed.

Lemma filterItems_total_witness :
  @filterItems sampleImports noCatalogArgs !! Helmet = Some [] /\
  @filterItems sampleImports noCatalogArgs !! ClassArmor = Some [].
Proof.
  split;
    apply (proj2 (@filterItems_total sampleImports noCatalogArgs));
    left; reflexivity.
Defined.

(** C3. In a bucket of the catalog, when the search filter keeps an item of
    the excluded-and-mods filtered sequence, the output is that sequence
    filtered by the search; when it rejects every item of a non-empty such
    sequence, the output is that sequence unchanged, and so not empty. *)
Theorem search_filter_fallback `{Imports} (a : FilterItemsArgs)
    (its : ItemsByBucket) (d : D2ManifestDefinitions) (b : LockableBucketHash)
    (bucketItems : list DimItem) :
  items a = Some its -> defs a = Some d ->
  its !! b = Some bucketItems ->
  ((exists x, In x (excludedAndModsFilteredItems a b bucketItems) /\
              searchFilter a x = true) ->
   filterItems a !! b =
   Some (List.filter (searchFilter a)
           (excludedAndModsFilteredItems a b bucketItems))) /\
  (excludedAndModsFilteredItems a b bucketItems <> [] ->
   (forall x, In x (excludedAndModsFilteredItems a b bucketItems) ->
              searchFilter a x = false) ->
   filterItems a !! b = Some (excludedAndModsFilteredItems a b bucketItems) /\
   filterItems a !! b <> Some []).
Proof.
  intros Hits Hd Hb.
  rewrite (filterItems_lookup a its b Hits) by (rewrite Hd; eauto).
  rewrite Hb. split.
  - intros (x & Hin & Hx).
    destruct (bucketResult_cases a b bucketItems) as [[_ ->]|[Hnil _]].
    + reflexivity.
    + exfalso. exact (filter_nonempty _ _ x Hin Hx Hnil).
  - intros Hne Hall.
    destruct (bucketResult_cases a b bucketItems) as [[Hsome _]|[_ ->]].
    + exfalso. apply Hsome. apply filter_none. exact Hall.
    + split; [reflexivity | congruence].
Qed.

Lemma search_filter_fallback_witness :
  @filterItems sampleImports (searchArgs (onlyId "h2")) !! Helmet =
    Some [helmet2] /\
  @filterItems sampleImports (searchArgs noItem) !! Helmet =
    Some [helmet1; helmet2].
Proof.
  split.
  - apply (proj1 (@search_filter_fallback sampleImports
                    (searchArgs (onlyId "h2")) (helmets threeHelmets) tt Helmet
                    threeHelmets eq_refl eq_refl eq_refl)).
    exists helmet2. split; [vm_compute; tauto | reflexivity].
  - apply (proj2 (@search_filter_fallback sampleImports (searchArgs noItem)
                    (helmets threeHelmets) tt Helmet threeHelmets
                    eq_refl eq_refl eq_refl)).
    + vm_compute. discriminate.
    + intros x _. reflexivity.
Defined.

(** C4. An item on which the oracle, called with the bucket's group of locked
    mods, the energy settings and [MIN_LO_ITEM_ENERGY], leaves a mod
    unassigned is not in the output of that bucket. *)
Theorem infeasible_item_not_in_output `{Imports} (a : FilterItemsArgs)
    (b : LockableBucketHash) (out : list DimItem) (item : DimItem) :
  filterItems a !! b = Some out ->
  unassigned
    (assignBucketSpecificMods (assumeArmorMasterwork a) (lockArmorEnergyType a)
       MIN_LO_ITEM_ENERGY item (lockedModsForPlugCategoryHash a b)) <> [] ->
  ~ In item out.
Proof.
  intros Hout Hun Hin.
  destruct (items a) as [its|] eqn:Hits; [destruct (defs a) as [d|] eqn:Hd|].
  - rewrite (filterItems_lookup a its b Hits) in Hout by (rewrite Hd; eauto).
    injection Hout as <-.
    destruct (its !! b) as [bucketItems|]; [|destruct Hin].
    apply bucketResult_In in Hin. destruct Hin as (_ & _ & Hmods).
    apply canTakeMods_unassigned in Hmods. exact (Hun Hmods).
  - rewrite (filterItems_degenerate a b) in Hout by (right; exact Hd).
    injection Hout as <-. destruct Hin.
  - rewrite (filterItems_degenerate a b) in Hout by (left; exact Hits).
    injection Hout as <-. destruct Hin.
Qed.

Lemma infeasible_item_not_in_output_witness :
  @filterItems sampleImports (searchArgs anyItem) !! Helmet =
    Some [helmet1; helmet2] /\
  ~ In helmet3 [helmet1; helmet2].
Proof.
  split; [reflexivity|].
  apply (@infeasible_item_not_in_output sampleImports (searchArgs anyItem)
           Helmet [helmet1; helmet2] helmet3).
  - reflexivity.
  - vm_compute. discriminate.
Defined.

(** Filtering keeps every occurrence of an item it accepts. *)
Lemma count_occ_filter (p : DimItem -> bool) (l : list DimItem) (x : DimItem) :
  count_occ DimItem_eq_dec (List.filter p l) x =
  if p x then count_occ DimItem_eq_dec l x else 0%nat.
Proof.
  induction l as [|y l IH]; simpl.
  - destruct (p x); reflexivity.
  - destruct (DimItem_eq_dec y x) as [->|Hne].
    + destruct (p x) eqn:Hp; simpl.
      * rewrite IH. destruct (DimItem_eq_dec x x); congruence.
      * exact IH.
    + destruct (p y); simpl; [|exact IH].
      destruct (DimItem_eq_dec y x); [contradiction | exact IH].
Qed.

(** C5. Without a pin, when the exotic lock names a hash that an item of the
    bucket has, the first pass is the bucket's items of that hash, in catalog
    order; every copy is kept as many times as the catalog has it, and
    nothing else is kept. *)
Theorem locked_exotic_first_pass `{Imports} (a : FilterItemsArgs)
    (b : LockableBucketHash) (bucketItems : list DimItem) (h : Z) :
  pinnedItems a !! b = None ->
  lockedExoticHash a = Some h ->
  (exists x, In x bucketItems /\ item_hash x = h) ->
  firstPassFilteredItems a b bucketItems =
    List.filter (fun i => item_hash i =? h) bucketItems /\
  (forall x, item_hash x = h ->
     count_occ DimItem_eq_dec (firstPassFilteredItems a b bucketItems) x =
     count_occ DimItem_eq_dec bucketItems x) /\
  (forall x, In x (firstPassFilteredItems a b bucketItems) ->
     In x bucketItems /\ item_hash x = h).
Proof.
  intros Hpin Hlock (x0 & Hin0 & Hx0).
  assert (Hfirst : firstPassFilteredItems a b bucketItems =
                   List.filter (fun i => item_hash i =? h) bucketItems).
  { rewrite <- (exotics_locked a bucketItems h Hlock).
    apply firstPass_exotics; [exact Hpin|].
    rewrite (exotics_locked a bucketItems h Hlock).
    apply (filter_nonempty _ _ x0 Hin0). apply Z.eqb_eq. exact Hx0. }
  rewrite Hfirst. split; [reflexivity | split].
  - intros x Hx. rewrite count_occ_filter.
    rewrite (proj2 (Z.eqb_eq _ _) Hx). reflexivity.
  - intros x Hx. apply List.filter_In in Hx. destruct Hx as [Hin Hx].
    apply Z.eqb_eq in Hx. auto.
Qed.

Lemma locked_exotic_first_pass_witness :
  @firstPassFilteredItems sampleImports exoticCopiesArgs Helmet withCopies =
  [exotic1; exotic2].
Proof.
  apply (proj1 (@locked_exotic_first_pass sampleImports exoticCopiesArgs Helmet
                  withCopies 100 eq_refl eq_refl
                  (ex_intro _ exotic1
                     (conj (or_intror (or_introl eq_refl)) eq_refl)))).
Defined.

(** C6. Without a pin, when the exotic lock is [LOCKED_EXOTIC_NO_EXOTIC] and
    no item of the bucket has that value as its hash, the first pass is the
    bucket's items without the exotic ones, and no exotic item is in the
    first pass, in the excluded-and-mods filtered sequence or in the
    bucket's result. *)
Theorem no_exotic_first_pass `{Imports} (a : FilterItemsArgs)
    (b : LockableBucketHash) (bucketItems : list DimItem) :
  pinnedItems a !! b = None ->
  lockedExoticHash a = Some LOCKED_EXOTIC_NO_EXOTIC ->
  (forall x, In x bucketItems -> item_hash x <> LOCKED_EXOTIC_NO_EXOTIC) ->
  firstPassFilteredItems a b bucketItems =
    List.filter (fun i => negb (isExotic i)) bucketItems /\
  (forall x, In x (firstPassFilteredItems a b bucketItems) ->
     isExotic x = false) /\
  (forall x, In x (excludedAndModsFilteredItems a b bucketItems) ->
     isExotic x = false) /\
  (forall x, In x (bucketResult a b bucketItems) -> isExotic x = false).
Proof.
  intros Hpin Hlock Hnone.
  assert (Hfirst : firstPassFilteredItems a b bucketItems =
                   List.filter (fun i => negb (isExotic i)) bucketItems).
  { unfold firstPassFilteredItems. rewrite Hpin.
    rewrite (exotics_locked a bucketItems _ Hlock).
    rewrite filter_none.
    - simpl. rewrite Hlock. simpl. rewrite Z.eqb_refl. reflexivity.
    - intros x Hx. apply Z.eqb_neq. apply Hnone. exact Hx. }
  assert (Hplain : forall x, In x (firstPassFilteredItems a b bucketItems) ->
                             isExotic x = false).
  { intros x Hx. rewrite Hfirst in Hx. apply List.filter_In in Hx.
    destruct Hx as [_ Hx]. apply negb_true_iff in Hx. exact Hx. }
  split; [exact Hfirst | split; [exact Hplain | split]].
  - intros x Hx. apply List.filter_In in Hx. apply Hplain. tauto.
  - intros x Hx. apply bucketResult_In in Hx. apply Hplain. tauto.
Qed.

Lemma no_exotic_first_pass_witness :
  @firstPassFilteredItems sampleImports scenarioArgs Helmet threeHelmets =
  [helmet2; helmet3].
Proof.
  apply (proj1 (@no_exotic_first_pass sampleImports scenarioArgs Helmet
                  threeHelmets eq_refl eq_refl
                  ltac:(intros x [<-|[<-|[<-|[]]]]; discriminate))).
Defined.

Section Exclusion.
Context `{Imports}.
Implicit Types (a : FilterItemsArgs) (b : LockableBucketHash).

Lemma isExcluded_member a b (exc : list DimItem) (x : DimItem) :
  excludedItems a !! b = Some exc -> In x exc -> isExcluded a b x = true.
Proof.
  intros Hexc Hin. unfold isExcluded. rewrite Hexc.
  apply existsb_exists. exists x. split; [exact Hin | apply String.eqb_refl].
Qed.

Lemma isExcluded_other a b (exc : list DimItem) (x : DimItem) :
  excludedItems a !! b = Some exc ->
  (forall e, In e exc -> item_id e <> item_id x) ->
  isExcluded a b x = false.
Proof.
  intros Hexc Hids. unfold isExcluded. rewrite Hexc.
  destruct (existsb _ exc) eqn:Hex; [|reflexivity].
  apply existsb_exists in Hex. destruct Hex as (e & Hin & Heq).
  apply String.eqb_eq in Heq. exfalso. apply (Hids e Hin). congruence.
Qed.

(** The result for two copies of the locked exotic of which the second is
    excluded, whatever the search filter says about the first. *)
Lemma excluded_copy_any_search a b (bucketItems exc : list DimItem)
    (X : Z) (X1 X2 : DimItem) :
  pinnedItems a !! b = None ->
  lockedExoticHash a = Some X ->
  (List.filter (fun i => item_hash i =? X) bucketItems = [X1; X2] \/
   List.filter (fun i => item_hash i =? X) bucketItems = [X2; X1]) ->
  excludedItems a !! b = Some exc ->
  In X2 exc ->
  (forall e, In e exc -> item_id e <> item_id X1) ->
  unassigned (modAssignment a b X1) = [] ->
  bucketResult a b bucketItems = [X1].
Proof.
  intros Hpin Hlock Hcopies Hexc Hin2 Hnot1 Hmods1.
  pose proof (isExcluded_member a b exc X2 Hexc Hin2) as Hex2.
  pose proof (isExcluded_other a b exc X1 Hexc Hnot1) as Hex1.
  apply canTakeMods_unassigned in Hmods1.
  unfold bucketResult, searchFilteredItems, excludedAndModsFilteredItems.
  rewrite firstPass_exotics.
  - rewrite (exotics_locked a bucketItems X Hlock).
    destruct Hcopies as [-> | ->]; simpl; rewrite Hex1, Hex2, Hmods1; simpl;
      destruct (searchFilter a X1); reflexivity.
  - exact Hpin.
  - rewrite (exotics_locked a bucketItems X Hlock).
    destruct Hcopies as [-> | ->]; discriminate.
Qed.

End Exclusion.

(** C7. The exotic lock names X, the bucket's items of that hash are the two
    copies X1 and X2, X2 is in the bucket's excluded list and X1 is not, the
    oracle leaves no mod unassigned on either copy, nothing is pinned and the
    search filter accepts X1: the output of the bucket is X1 alone. *)
Theorem excluded_exotic_copy `{Imports} (a : FilterItemsArgs)
    (its : ItemsByBucket) (d : D2ManifestDefinitions) (b : LockableBucketHash)
    (bucketItems exc : list DimItem) (X : Z) (X1 X2 : DimItem) :
  items a = Some its -> defs a = Some d ->
  its !! b = Some bucketItems ->
  pinnedItems a !! b = None ->
  lockedExoticHash a = Some X ->
  (List.filter (fun i => item_hash i =? X) bucketItems = [X1; X2] \/
   List.filter (fun i => item_hash i =? X) bucketItems = [X2; X1]) ->
  excludedItems a !! b = Some exc ->
  In X2 exc ->
  (forall e, In e exc -> item_id e <> item_id X1) ->
  unassigned (modAssignment a b X1) = [] ->
  unassigned (modAssignment a b X2) = [] ->
  searchFilter a X1 = true ->
  filterItems a !! b = Some [X1].
Proof.
  intros Hits Hd Hb Hpin Hlock Hcopies Hexc Hin2 Hnot1 Hmods1 _ _.
  rewrite (filterItems_lookup a its b Hits) by (rewrite Hd; eauto).
  rewrite Hb. f_equal.
  exact (excluded_copy_any_search a b bucketItems exc X X1 X2
           Hpin Hlock Hcopies Hexc Hin2 Hnot1 Hmods1).
Qed.

Lemma excluded_exotic_copy_witness :
  @filterItems sampleImports exoticCopiesArgs !! Helmet = Some [exotic1].
Proof.
  apply (@excluded_exotic_copy sampleImports exoticCopiesArgs
           (helmets withCopies) tt Helmet withCopies [exotic2] 100
           exotic1 exotic2);
    try reflexivity.
  - left. reflexivity.
  - simpl. tauto.
  - intros e [<-|[]]. discriminate.
Defined.

(** C8. Without a pin, the output of a bucket of the catalog is a subsequence
    of the bucket's catalog sequence: the first pass is a subsequence of the
    catalog, the excluded-and-mods filter of the first pass, and the output
    of the latter. *)
Theorem output_sublist_of_catalog `{Imports} (a : FilterItemsArgs)
    (its : ItemsByBucket) (b : LockableBucketHash)
    (bucketItems : list DimItem) :
  items a = Some its ->
  its !! b = Some bucketItems ->
  pinnedItems a !! b = None ->
  sublist (firstPassFilteredItems a b bucketItems) bucketItems /\
  sublist (excludedAndModsFilteredItems a b bucketItems)
    (firstPassFilteredItems a b bucketItems) /\
  sublist (bucketResult a b bucketItems)
    (excludedAndModsFilteredItems a b bucketItems) /\
  exists out, filterItems a !! b = Some out /\ sublist out bucketItems.
Proof.
  intros Hits Hb Hpin.
  pose proof (firstPass_sublist a b bucketItems Hpin) as Hfirst.
  pose proof (filter_sublist
                (fun item => negb (isExcluded a b item) && canTakeMods a b item)
                (firstPassFilteredItems a b bucketItems)) as Hstep4.
  pose proof (bucketResult_sublist a b bucketItems) as Hres.
  repeat split; try assumption.
  destruct (defs a) as [d|] eqn:Hd.
  - exists (bucketResult a b bucketItems). split.
    + rewrite (filterItems_lookup a its b Hits) by (rewrite Hd; eauto).
      rewrite Hb. reflexivity.
    + etrans; [exact Hres|]. etrans; [exact Hstep4 | exact Hfirst].
  - exists []. split.
    + apply filterItems_degenerate. right. exact Hd.
    + apply sublist_nil_l.
Qed.

Lemma output_sublist_of_catalog_witness :
  exists out,
    @filterItems sampleImports exoticCopiesArgs !! Helmet = Some out /\
    sublist out withCopies.
Proof.
  apply (@output_sublist_of_catalog sampleImports exoticCopiesArgs
           (helmets withCopies) Helmet withCopies); reflexivity.
Defined.

(** C9. Without a pin, when the exotic lock names a hash that an item of the
    bucket has and every item of that hash is excluded or is left with an
    unassigned mod by the oracle, the output of the bucket is empty: the
    other items of the bucket are not taken instead. *)
Theorem locked_exotic_no_fallback `{Imports} (a : FilterItemsArgs)
    (its : ItemsByBucket) (b : LockableBucketHash) (bucketItems : list DimItem)
    (h : Z) :
  items a = Some its ->
  its !! b = Some bucketItems ->
  pinnedItems a !! b = None ->
  lockedExoticHash a = Some h ->
  (exists x, In x bucketItems /\ item_hash x = h) ->
  (forall x, In x bucketItems -> item_hash x = h ->
     isExcluded a b x = true \/ unassigned (modAssignment a b x) <> []) ->
  filterItems a !! b = Some [].
Proof.
  intros Hits Hb Hpin Hlock (x0 & Hin0 & Hx0) Hgone.
  destruct (defs a) as [d|] eqn:Hd;
    [|apply filterItems_degenerate; right; exact Hd].
  rewrite (filterItems_lookup a its b Hits) by (rewrite Hd; eauto).
  rewrite Hb. f_equal.
  assert (Hstep4 : excludedAndModsFilteredItems a b bucketItems = []).
  { unfold excludedAndModsFilteredItems. apply filter_none. intros x Hx.
    rewrite firstPass_exotics in Hx.
    - rewrite (exotics_locked a bucketItems h Hlock) in Hx.
      apply List.filter_In in Hx. destruct Hx as [Hin Hx].
      apply Z.eqb_eq in Hx.
      destruct (Hgone x Hin Hx) as [Hex|Hun].
      + rewrite Hex. reflexivity.
      + destruct (canTakeMods a b x) eqn:Hmods.
        * apply canTakeMods_unassigned in Hmods. contradiction.
        * apply andb_false_r.
    - exact Hpin.
    - rewrite (exotics_locked a bucketItems h Hlock).
      apply (filter_nonempty _ _ x0 Hin0). apply Z.eqb_eq. exact Hx0. }
  unfold bucketResult, searchFilteredItems. rewrite Hstep4. reflexivity.
Qed.

Lemma locked_exotic_no_fallback_witness :
  @filterItems sampleImports exoticGoneArgs !! Helmet = Some [].
Proof.
  apply (@locked_exotic_no_fallback sampleImports exoticGoneArgs
           (helmets shortCopies) Helmet shortCopies 100);
    try reflexivity.
  - exists exotic1. simpl. tauto.
  - intros x [<-|[<-|[<-|[]]]] Hx; try discriminate; left; reflexivity.
Defined.

(** C10. A bucket without an entry in a present catalog gets the empty
    sequence, whether or not an item is pinned for it. *)
Theorem absent_bucket_ignores_pin `{Imports} (a : FilterItemsArgs)
    (its : ItemsByBucket) (b : LockableBucketHash) :
  items a = Some its ->
  its !! b = None ->
  filterItems a !! b = Some [] /\
  (forall P, pinnedItems a !! b = Some P -> filterItems a !! b <> Some [P]).
Proof.
  intros Hits Hb.
  assert (Hout : filterItems a !! b = Some []).
  { destruct (defs a) as [d|] eqn:Hd.
    - rewrite (filterItems_lookup a its b Hits) by (rewrite Hd; eauto).
      rewrite Hb. reflexivity.
    - apply filterItems_degenerate. right. exact Hd. }
  split; [exact Hout|].
  intros P _. rewrite Hout. discriminate.
Qed.

Lemma absent_bucket_ignores_pin_witness :
  pinnedItems pinnedAbsentArgs !! Gauntlets = Some gauntlets1 /\
  @filterItems sampleImports pinnedAbsentArgs !! Gauntlets = Some [].
Proof.
  split; [reflexivity|].
  apply (proj1 (@absent_bucket_ignores_pin sampleImports pinnedAbsentArgs
                  (helmets [helmet1; helmet2]) Gauntlets eq_refl eq_refl)).
Defined.

(** ** Further properties of [filterItems] *)

Lemma filter_all {A : Type} (p : A -> bool) (l : list A) :
  (forall x, In x l -> p x = true) -> List.filter p l = l.
Proof.
  induction l as [|x l IH]; simpl; intros Hall; [reflexivity|].
  rewrite (Hall x) by (left; reflexivity).
  f_equal. apply IH. intros y Hy. apply Hall. right. exact Hy.
Qed.

Lemma filter_empty_all_false {A : Type} (p : A -> bool) (l : list A) (x : A) :
  List.filter p l = [] -> In x l -> p x = false.
Proof.
  intros Hnil Hin. destruct (p x) eqn:Hp; [|reflexivity].
  exfalso. exact (filter_nonempty p l x Hin Hp Hnil).
Qed.

Lemma sublist_In {A : Type} (l k : list A) (x : A) :
  sublist l k -> In x l -> In x k.
Proof.
  intros Hsub Hin. apply list_elem_of_In.
  apply (sublist_subseteq _ _ Hsub). apply list_elem_of_In. exact Hin.
Qed.

(** X1. The mods handed to the oracle for a bucket are the locked mods whose
    plug category is the one the table gives for the bucket, in the order in
    which they were locked: a mod of another category never reaches the
    oracle of this bucket, and a mod of this category always does. *)
Theorem oracle_gets_bucket_mods `{Imports} (a : FilterItemsArgs)
    (b : LockableBucketHash) :
  lockedModsForPlugCategoryHash a b =
    List.filter
      (fun m => plugCategoryHash (plug m) =? bucketHashToPlugCategoryHash b)
      (lockedMods a) /\
  sublist (lockedModsForPlugCategoryHash a b) (lockedMods a) /\
  (forall m, In m (lockedModsForPlugCategoryHash a b) <->
     In m (lockedMods a) /\
     plugCategoryHash (plug m) = bucketHashToPlugCategoryHash b).
Proof.
  pose proof (groupBy_lookup (fun m => plugCategoryHash (plug m)) (lockedMods a)
                (bucketHashToPlugCategoryHash b)) as Hgroup.
  unfold lockedModsForPlugCategoryHash, lockedModMap.
  rewrite Hgroup. split; [reflexivity | split].
  - apply filter_sublist.
  - intros m. rewrite List.filter_In, Z.eqb_eq. reflexivity.
Qed.

(** The first pass when neither a pin nor the exotic lock applies. *)
Lemma firstPass_unlocked `{Imports} (a : FilterItemsArgs)
    (b : LockableBucketHash) (bucketItems : list DimItem) :
  pinnedItems a !! b = None ->
  (lockedExoticHash a = None \/
   exists h, lockedExoticHash a = Some h /\ h <> LOCKED_EXOTIC_NO_EXOTIC /\
             forall x, In x bucketItems -> item_hash x <> h) ->
  firstPassFilteredItems a b bucketItems = bucketItems.
Proof.
  intros Hpin Hlock.
  unfold firstPassFilteredItems, exotics. rewrite Hpin.
  destruct Hlock as [->|(h & -> & Hne & Hnone)]; simpl.
  - rewrite filter_none by reflexivity. reflexivity.
  - rewrite filter_none.
    + simpl. destruct (Z.eqb_spec LOCKED_EXOTIC_NO_EXOTIC h); congruence.
    + intros x Hx. apply Z.eqb_neq. apply Hnone. exact Hx.
Qed.

(** X2. Without a pin, an exotic lock that is absent, or that names a hash
    other than the sentinel which no item of the bucket has, leaves the
    bucket untouched in the first pass: the exotic items of the bucket stay
    candidates, and the excluded-and-mods filter runs on the whole bucket. *)
Theorem lock_elsewhere_first_pass `{Imports} (a : FilterItemsArgs)
    (b : LockableBucketHash) (bucketItems : list DimItem) :
  pinnedItems a !! b = None ->
  (lockedExoticHash a = None \/
   exists h, lockedExoticHash a = Some h /\ h <> LOCKED_EXOTIC_NO_EXOTIC /\
             forall x, In x bucketItems -> item_hash x <> h) ->
  firstPassFilteredItems a b bucketItems = bucketItems /\
  excludedAndModsFilteredItems a b bucketItems =
    List.filter
      (fun item => negb (isExcluded a b item) && canTakeMods a b item)
      bucketItems.
Proof.
  intros Hpin Hlock.
  pose proof (firstPass_unlocked a b bucketItems Hpin Hlock) as Hfirst.
  split; [exact Hfirst|].
  unfold excludedAndModsFilteredItems. rewrite Hfirst. reflexivity.
Qed.

Lemma lock_elsewhere_first_pass_witness :
  @firstPassFilteredItems sampleImports lockElsewhereArgs Helmet threeHelmets =
  [helmet1; helmet2; helmet3].
Proof.
  apply (@lock_elsewhere_first_pass sampleImports lockElsewhereArgs Helmet
           threeHelmets).
  - reflexivity.
  - right. exists 555. split; [reflexivity | split].
    + discriminate.
    + intros x [<-|[<-|[<-|[]]]]; discriminate.
Defined.

(** X3. An item whose id is the id of an item in the bucket's excluded list
    is not in the output of that bucket, whether it is pinned, a copy of the
    locked exotic or accepted by the search filter; the hash and the exotic
    flag of the excluded entry do not matter. *)
Theorem excluded_id_not_in_output `{Imports} (a : FilterItemsArgs)
    (b : LockableBucketHash) (out exc : list DimItem) (x e : DimItem) :
  filterItems a !! b = Some out ->
  excludedItems a !! b = Some exc ->
  In e exc ->
  item_id x = item_id e ->
  ~ In x out.
Proof.
  intros Hout Hexc He Hid Hin.
  assert (Hex : isExcluded a b x = true).
  { unfold isExcluded. rewrite Hexc. apply existsb_exists.
    exists e. split; [exact He | apply String.eqb_eq; exact Hid]. }
  destruct (items a) as [its|] eqn:Hits; [destruct (defs a) as [d|] eqn:Hd|].
  - rewrite (filterItems_lookup a its b Hits) in Hout by (rewrite Hd; eauto).
    injection Hout as <-.
    destruct (its !! b) as [bucketItems|]; [|destruct Hin].
    apply bucketResult_In in Hin. destruct Hin as (_ & Hnot & _). congruence.
  - rewrite (filterItems_degenerate a b) in Hout by (right; exact Hd).
    injection Hout as <-. destruct Hin.
  - rewrite (filterItems_degenerate a b) in Hout by (left; exact Hits).
    injection Hout as <-. destruct Hin.
Qed.

Lemma excluded_id_not_in_output_witness :
  ~ In (mkDimItem "x2" 7 false) [exotic1].
Proof.
  apply (@excluded_id_not_in_output sampleImports exoticCopiesArgs Helmet
           [exotic1] [exotic2] (mkDimItem "x2" 7 false) exotic2);
    try reflexivity.
  simpl. tauto.
Defined.

(** X4. The output of a bucket is never a mix: either the search filter
    accepts every item of it, or it rejects every item of it. *)
Theorem search_all_or_nothing `{Imports} (a : FilterItemsArgs)
    (b : LockableBucketHash) (out : list DimItem) :
  filterItems a !! b = Some out ->
  (forall x, In x out -> searchFilter a x = true) \/
  (forall x, In x out -> searchFilter a x = false).
Proof.
  intros Hout.
  destruct (items a) as [its|] eqn:Hits; [destruct (defs a) as [d|] eqn:Hd|].
  - rewrite (filterItems_lookup a its b Hits) in Hout by (rewrite Hd; eauto).
    injection Hout as <-.
    destruct (its !! b) as [bucketItems|]; [|left; intros x []].
    destruct (bucketResult_cases a b bucketItems) as [[_ ->]|[Hnil ->]].
    + left. intros x Hx. apply List.filter_In in Hx. tauto.
    + right. intros x Hx. exact (filter_empty_all_false _ _ x Hnil Hx).
  - rewrite (filterItems_degenerate a b) in Hout by (right; exact Hd).
    injection Hout as <-. left. intros x [].
  - rewrite (filterItems_degenerate a b) in Hout by (left; exact Hits).
    injection Hout as <-. left. intros x [].
Qed.

Lemma search_all_or_nothing_witness :
  (forall x, In x [helmet2] -> onlyId "h2" x = true) \/
  (forall x, In x [helmet2] -> onlyId "h2" x = false).
Proof.
  apply (@search_all_or_nothing sampleImports (searchArgs (onlyId "h2")) Helmet
           [helmet2]).
  reflexivity.
Defined.

Section Composition.
Context `{Imports}.
Implicit Types (a : FilterItemsArgs) (b : LockableBucketHash).
Implicit Types (bucketItems out : list DimItem) (its : ItemsByBucket).

(** What a bucket's result depends on. *)
Lemma bucketResult_ext a a' b bucketItems :
  pinnedItems a !! b = pinnedItems a' !! b ->
  excludedItems a !! b = excludedItems a' !! b ->
  lockedMods a = lockedMods a' ->
  lockedExoticHash a = lockedExoticHash a' ->
  lockArmorEnergyType a = lockArmorEnergyType a' ->
  assumeArmorMasterwork a = assumeArmorMasterwork a' ->
  (forall x, searchFilter a x = searchFilter a' x) ->
  bucketResult a b bucketItems = bucketResult a' b bucketItems.
Proof.
  intros Hpin Hexc Hmods Hlock Henergy Hmw Hsearch.
  assert (Hfirst : firstPassFilteredItems a b bucketItems =
                   firstPassFilteredItems a' b bucketItems).
  { unfold firstPassFilteredItems, exotics. rewrite Hpin, Hlock. reflexivity. }
  assert (Hkeep : forall x,
             negb (isExcluded a b x) && canTakeMods a b x =
             negb (isExcluded a' b x) && canTakeMods a' b x).
  { intros x.
    unfold isExcluded, canTakeMods, modAssignment,
      lockedModsForPlugCategoryHash, lockedModMap.
    rewrite Hexc, Hmods, Henergy, Hmw. reflexivity. }
  assert (Hstep4 : excludedAndModsFilteredItems a b bucketItems =
                   excludedAndModsFilteredItems a' b bucketItems).
  { unfold excludedAndModsFilteredItems. rewrite Hfirst.
    apply List.filter_ext. exact Hkeep. }
  unfold bucketResult, searchFilteredItems. rewrite Hstep4.
  rewrite (List.filter_ext _ _ Hsearch). reflexivity.
Qed.

(** Every item of a bucket's result went through the first pass of the
    bucket, so the result is its own first pass. *)
Lemma firstPass_of_result a b bucketItems :
  pinnedItems a !! b = None ->
  firstPassFilteredItems a b (bucketResult a b bucketItems) =
  bucketResult a b bucketItems.
Proof.
  intros Hpin.
  set (out := bucketResult a b bucketItems).
  assert (Hsub : forall x, In x out ->
                   In x (firstPassFilteredItems a b bucketItems)).
  { intros x Hx. apply bucketResult_In in Hx. tauto. }
  assert (Hcat : forall x, In x out -> In x bucketItems).
  { intros x Hx.
    apply (sublist_In _ _ x (firstPass_sublist a b bucketItems Hpin)).
    apply Hsub. exact Hx. }
  unfold firstPassFilteredItems in Hsub |- *. rewrite Hpin in Hsub |- *.
  destruct (0 <? length (exotics a out))%nat eqn:Hcopies.
  - (* a copy of the locked exotic is in the result *)
    apply length_pos_nonempty in Hcopies.
    assert (Hsome : exotics a bucketItems <> []).
    { destruct (exotics a out) as [|x rest] eqn:Hex; [congruence|].
      assert (Hx : In x (exotics a out)) by (rewrite Hex; left; reflexivity).
      apply List.filter_In in Hx. destruct Hx as [Hx Hhash].
      exact (filter_nonempty _ _ x (Hcat x Hx) Hhash). }
    apply length_pos_nonempty in Hsome. rewrite Hsome in Hsub.
    apply filter_all. intros x Hx. apply Hsub in Hx.
    apply List.filter_In in Hx. tauto.
  - destruct (hash_is (lockedExoticHash a) LOCKED_EXOTIC_NO_EXOTIC);
      [|reflexivity].
    apply filter_all. intros x Hx.
    destruct (0 <? length (exotics a bucketItems))%nat.
    + (* the result holds copies only, and holds no copy *)
      exfalso.
      assert (Hhash : hash_is (lockedExoticHash a) (item_hash x) = true).
      { pose proof (Hsub x Hx) as Hin. apply List.filter_In in Hin. tauto. }
      assert (Hnone : exotics a out = []).
      { destruct (exotics a out); [reflexivity | discriminate]. }
      exact (filter_nonempty _ _ x Hx Hhash Hnone).
    + pose proof (Hsub x Hx) as Hin. apply List.filter_In in Hin. tauto.
Qed.

(** A bucket's result is a fixed point of the bucket's filter. *)
Lemma bucketResult_fixed a b bucketItems :
  bucketResult a b (bucketResult a b bucketItems) = bucketResult a b bucketItems.
Proof.
  destruct (pinnedItems a !! b) as [P|] eqn:Hpin.
  - unfold bucketResult, searchFilteredItems, excludedAndModsFilteredItems.
    rewrite !(firstPass_pinned a b _ P Hpin). reflexivity.
  - set (out := bucketResult a b bucketItems).
    assert (Hstep4 : excludedAndModsFilteredItems a b out = out).
    { unfold excludedAndModsFilteredItems.
      unfold out at 1. rewrite (firstPass_of_result a b bucketItems Hpin).
      apply filter_all. intros x Hx. apply bucketResult_In in Hx.
      destruct Hx as (_ & -> & ->). reflexivity. }
    unfold bucketResult at 1, searchFilteredItems. rewrite Hstep4.
    destruct (bucketResult_cases a b bucketItems) as [[_ Hout]|[Hnil Hout]].
    + rewrite filter_all.
      * destruct (0 <? length out)%nat; reflexivity.
      * intros x Hx. unfold out in Hx. rewrite Hout in Hx.
        apply List.filter_In in Hx. tauto.
    + rewrite filter_none; [reflexivity|].
      intros x Hx. unfold out in Hx. rewrite Hout in Hx.
      exact (filter_empty_all_false _ _ x Hnil Hx).
Qed.

Lemma bucketResult_nil a b :
  pinnedItems a !! b = None -> bucketResult a b [] = [].
Proof.
  intros Hpin.
  unfold bucketResult, searchFilteredItems, excludedAndModsFilteredItems,
    firstPassFilteredItems.
  rewrite Hpin. simpl.
  destruct (hash_is (lockedExoticHash a) LOCKED_EXOTIC_NO_EXOTIC); reflexivity.
Qed.

End Composition.

(** X5. Buckets do not interact: the output of a bucket is determined by the
    bucket's own entries in the catalog, the pins and the exclusions, and by
    the arguments that are not indexed by bucket. Two calls that agree on
    those give the bucket the same output, whatever they hold for the other
    buckets. *)
Theorem bucket_independence `{Imports} (a a' : FilterItemsArgs)
    (its its' : ItemsByBucket) (d d' : D2ManifestDefinitions)
    (b : LockableBucketHash) :
  items a = Some its -> items a' = Some its' ->
  defs a = Some d -> defs a' = Some d' ->
  its !! b = its' !! b ->
  pinnedItems a !! b = pinnedItems a' !! b ->
  excludedItems a !! b = excludedItems a' !! b ->
  lockedMods a = lockedMods a' ->
  lockedExoticHash a = lockedExoticHash a' ->
  lockArmorEnergyType a = lockArmorEnergyType a' ->
  assumeArmorMasterwork a = assumeArmorMasterwork a' ->
  (forall x, searchFilter a x = searchFilter a' x) ->
  filterItems a !! b = filterItems a' !! b.
Proof.
  intros Hits Hits' Hd Hd' Hb Hpin Hexc Hmods Hlock Henergy Hmw Hsearch.
  rewrite (filterItems_lookup a its b Hits) by (rewrite Hd; eauto).
  rewrite (filterItems_lookup a' its' b Hits') by (rewrite Hd'; eauto).
  rewrite Hb. destruct (its' !! b) as [bucketItems|]; [|reflexivity].
  f_equal. apply bucketResult_ext; assumption.
Qed.

Lemma bucket_independence_witness :
  @filterItems sampleImports exoticCopiesArgs !! Helmet =
  @filterItems sampleImports crowdedArgs !! Helmet.
Proof.
  apply (@bucket_independence sampleImports exoticCopiesArgs crowdedArgs
           (helmets withCopies)
           (<[Gauntlets := [gauntlets1]]> (helmets withCopies)) tt tt Helmet);
    reflexivity.
Defined.

(** X6. Filtering is idempotent: when the result of a call is given back as
    the catalog of the same call, every bucket that the first catalog had, or
    that has no pin, keeps its output. *)
Theorem filterItems_idempotent `{Imports} (a : FilterItemsArgs)
    (its : ItemsByBucket) (d : D2ManifestDefinitions)
    (b : LockableBucketHash) :
  items a = Some its -> defs a = Some d ->
  is_Some (its !! b) \/ pinnedItems a !! b = None ->
  filterItems (refilter a) !! b = filterItems a !! b.
Proof.
  intros Hits Hd Hb.
  rewrite (filterItems_lookup (refilter a) (filterItems a) b)
    by (simpl; rewrite ?Hd; eauto).
  rewrite (filterItems_lookup a its b Hits) by (rewrite Hd; eauto).
  f_equal.
  change (bucketResult (refilter a) b) with (bucketResult a b).
  destruct (its !! b) as [bucketItems|] eqn:Hcat.
  - apply bucketResult_fixed.
  - destruct Hb as [[l Hl]|Hpin]; [discriminate|].
    apply bucketResult_nil. exact Hpin.
Qed.

Lemma filterItems_idempotent_witness :
  @filterItems sampleImports (refilter (searchArgs (onlyId "h2"))) !! Helmet =
  Some [helmet2].
Proof.
  apply (@filterItems_idempotent sampleImports (searchArgs (onlyId "h2"))
           (helmets threeHelmets) tt Helmet); try reflexivity.
  left. eexists. reflexivity.
Defined.

(** The buckets left out of X6: a pin on a bucket that the catalog lacks is
    ignored by the first call and honoured by the second one. *)
Example refilter_absent_pinned :
  @filterItems sampleImports pinnedAbsentArgs !! Gauntlets = Some [] /\
  @filterItems sampleImports (refilter pinnedAbsentArgs) !! Gauntlets =
    Some [gauntlets1].
Proof. split; reflexivity. Qed.

(** X7. A search that matches none of the items left by the
    excluded-and-mods filter of a bucket gives the bucket the output of a
    search that matches everything. *)
Theorem unmatched_search_is_no_search `{Imports} (a : FilterItemsArgs)
    (its : ItemsByBucket) (d : D2ManifestDefinitions)
    (b : LockableBucketHash) (bucketItems : list DimItem)
    (search : ItemFilter) :
  items a = Some its -> defs a = Some d ->
  its !! b = Some bucketItems ->
  (forall x, In x (excludedAndModsFilteredItems a b bucketItems) ->
     search x = false) ->
  filterItems (withSearchFilter a search) !! b =
  filterItems (withSearchFilter a (fun _ => true)) !! b.
Proof.
  intros Hits Hd Hb Hnone.
  rewrite (filterItems_lookup (withSearchFilter a search) its b)
    by (simpl; rewrite ?Hd; eauto).
  rewrite (filterItems_lookup (withSearchFilter a (fun _ => true)) its b)
    by (simpl; rewrite ?Hd; eauto).
  rewrite Hb. f_equal.
  unfold bucketResult, searchFilteredItems.
  change (excludedAndModsFilteredItems (withSearchFilter a search) b)
    with (excludedAndModsFilteredItems a b).
  change (excludedAndModsFilteredItems (withSearchFilter a (fun _ => true)) b)
    with (excludedAndModsFilteredItems a b).
  simpl searchFilter.
  rewrite (filter_none search) by exact Hnone.
  rewrite (filter_all (fun _ => true)) by reflexivity.
  simpl. destruct (0 <? length _)%nat; reflexivity.
Qed.

Lemma unmatched_search_is_no_search_witness :
  @filterItems sampleImports
    (withSearchFilter (searchArgs anyItem) (onlyId "h3")) !! Helmet =
  @filterItems sampleImports
    (withSearchFilter (searchArgs anyItem) (fun _ => true)) !! Helmet.
Proof.
  apply (@unmatched_search_is_no_search sampleImports (searchArgs anyItem)
           (helmets threeHelmets) tt Helmet threeHelmets (onlyId "h3"));
    try reflexivity.
  intros x Hx. vm_compute in Hx.
  destruct Hx as [<-|[<-|[]]]; reflexivity.
Defined.

(** X8. Without any constraint (no pin, no exclusion, no exotic lock, an
    oracle that leaves no mod unassigned, a search that accepts every item)
    the result is the catalog itself, completed with the empty sequence for
    the buckets that the catalog lacks. *)
Theorem unconstrained_filter_is_identity `{Imports} (a : FilterItemsArgs)
    (its : ItemsByBucket) (d : D2ManifestDefinitions) :
  items a = Some its -> defs a = Some d ->
  pinnedItems a = ∅ ->
  excludedItems a = ∅ ->
  lockedExoticHash a = None ->
  (forall b x, unassigned (modAssignment a b x) = []) ->
  (forall x, searchFilter a x = true) ->
  filterItems a = its ∪ noItems.
Proof.
  intros Hits Hd Hpin Hexc Hlock Horacle Hsearch.
  apply map_eq. intros b.
  rewrite (filterItems_lookup a its b Hits) by (rewrite Hd; eauto).
  destruct (its !! b) as [bucketItems|] eqn:Hb.
  - rewrite (lookup_union_Some_l its noItems b bucketItems Hb). f_equal.
    assert (Hnopin : pinnedItems a !! b = None)
      by (rewrite Hpin; apply lookup_empty).
    assert (Hstep4 : excludedAndModsFilteredItems a b bucketItems = bucketItems).
    { unfold excludedAndModsFilteredItems.
      rewrite (firstPass_unlocked a b bucketItems Hnopin (or_introl Hlock)).
      apply filter_all. intros x _.
      unfold isExcluded. rewrite Hexc, lookup_empty. simpl.
      apply canTakeMods_unassigned. apply Horacle. }
    unfold bucketResult, searchFilteredItems. rewrite Hstep4.
    rewrite (filter_all (searchFilter a)) by (intros x _; apply Hsearch).
    destruct (0 <? length bucketItems)%nat; reflexivity.
  - rewrite (lookup_union_r its noItems b Hb). symmetry. apply noItems_lookup.
Qed.

Lemma unconstrained_filter_is_identity_witness :
  @filterItems sampleImports freeArgs = helmets threeHelmets ∪ noItems.
Proof.
  apply (@unconstrained_filter_is_identity sampleImports freeArgs
           (helmets threeHelmets) tt); try reflexivity.
  intros b x. unfold modAssignment.
  rewrite (@lockedModsForPlugCategoryHash_filter sampleImports freeArgs b).
  simpl. destruct (String.eqb (item_id x) "h3"); reflexivity.
Defined.

(** ** Properties of the press tip *)

Module PressTipFacts.
Import PressTip.

(** X9. On every device, once the trigger element is mounted, [hover] is
    bound in exactly one way: through the event props, or as the native
    [touchstart] listener, never both and never neither; and [closeToolTip]
    is bound through the props on every device. *)
Theorem hover_bound_one_way (dev : Device) :
  ((exists prop, events dev !! prop = Some hover) <->
   listensTouchStart dev true = false) /\
  (exists prop, events dev !! prop = Some closeToolTip).
Proof.
  destruct dev as [pointer touch [[|]|]]; destruct pointer, touch;
    unfold events, listensTouchStart; simpl;
    (split; [split|]);
    try (intros _; reflexivity);
    try (intros _; first [ exists "onPointerOver"; reflexivity
                         | exists "onMouseEnter"; reflexivity ]);
    try discriminate;
    try (intros [prop Hprop];
         rewrite !lookup_insert in Hprop;
         repeat case_decide; try discriminate;
         rewrite lookup_empty in Hprop; discriminate);
    first [ exists "onPointerUp"; reflexivity
          | exists "onTouchEnd"; reflexivity
          | exists "onMouseUp"; reflexivity ].
Qed.

Section TimerFacts.
Context {Time : Type} (time0 : Time).
Implicit Types (s : State Time) (e : Event Time) (es : list (Event Time)).

Lemma single_pending_mounted dev : single_pending dev (mounted time0).
Proof.
  intros id delay Hid. simpl in Hid. rewrite lookup_empty in Hid. discriminate.
Qed.

Lemma cleared_none dev s id :
  single_pending dev s -> clearTimeout (timer s) (pending s) !! id = None.
Proof.
  intros Hinv. unfold clearTimeout.
  destruct (decide (timer s = id)) as [<-|Hne].
  - apply lookup_delete_eq.
  - rewrite lookup_delete_ne by exact Hne.
    destruct (pending s !! id) as [delay|] eqn:Hid; [|reflexivity].
    destruct (Hinv id delay Hid) as [-> _]. congruence.
Qed.

Lemma cleared_empty dev s :
  single_pending dev s -> clearTimeout (timer s) (pending s) = ∅.
Proof.
  intros Hinv. apply map_eq. intros id.
  rewrite lookup_empty. apply (cleared_none dev). exact Hinv.
Qed.

Lemma single_pending_handle dev s e :
  single_pending dev s -> single_pending dev (handle dev s e).
Proof.
  intros Hinv. destruct e as [id now| |id|]; simpl.
  - intros id' delay. simpl. rewrite (cleared_empty dev s Hinv).
    rewrite lookup_insert. case_decide as Hid.
    + intros [= <-]. auto.
    + rewrite lookup_empty. discriminate.
  - intros id' delay. simpl. rewrite (cleared_empty dev s Hinv), lookup_empty.
    discriminate.
  - destruct (pending s !! id) as [d|] eqn:Hid; [|exact Hinv].
    intros id' delay. simpl. intros Hid'.
    apply lookup_delete_Some in Hid'. destruct Hid' as [_ Hid'].
    exact (Hinv id' delay Hid').
  - intros id' delay. simpl. rewrite (cleared_empty dev s Hinv), lookup_empty.
    discriminate.
Qed.

Lemma single_pending_run dev s es :
  single_pending dev s -> single_pending dev (run dev s es).
Proof.
  revert s. induction es as [|e es IH]; intros s Hinv; simpl.
  - exact Hinv.
  - apply IH. apply single_pending_handle. exact Hinv.
Qed.

(** A closed tip without a pending timer stays so until the next hover. *)
Lemma closed_idle dev s es :
  open s = false -> pending s = ∅ ->
  forallb (fun e => negb (isHover e)) es = true ->
  open (run dev s es) = false /\ pending (run dev s es) = ∅.
Proof.
  revert s. induction es as [|e es IH]; intros s Hopen Hpending Hes; simpl.
  - auto.
  - simpl in Hes. apply andb_true_iff in Hes. destruct Hes as [He Hes].
    apply IH; [| |exact Hes]; destruct e as [id now| |id|]; simpl;
      try discriminate; rewrite ?Hpending, ?lookup_empty; simpl;
      try assumption; try reflexivity;
      unfold clearTimeout; apply delete_empty.
Qed.

Lemma fires_idle dev s (ids : list Z) :
  pending s = ∅ -> run dev s (map TimerFires ids) = s.
Proof.
  intros Hpending. induction ids as [|id ids IH]; simpl; [reflexivity|].
  rewrite Hpending, lookup_empty. exact IH.
Qed.

(** X10. Whatever happens to a mounted press tip, the component never has
    more than one timer pending: a pending timer is the one whose id is in
    [timer.current], and it was set with the hover delay of the device. *)
Theorem at_most_one_timer (dev : Device) es :
  single_pending dev (run dev (mounted time0) es) /\
  (size (pending (run dev (mounted time0) es)) <= 1)%nat.
Proof.
  pose proof (single_pending_run dev (mounted time0) es
                (single_pending_mounted dev)) as Hinv.
  split; [exact Hinv|].
  set (s := run dev (mounted time0) es) in *.
  destruct (pending s !! timer s) as [delay|] eqn:Hcur.
  - assert (Hone : pending s = {[timer s := delay]}).
    { apply map_eq. intros id. rewrite lookup_singleton. case_decide as Hid.
      - subst id. exact Hcur.
      - destruct (pending s !! id) as [d|] eqn:Hd; [|reflexivity].
        destruct (Hinv id d Hd) as [-> _]. congruence. }
    rewrite Hone, map_size_singleton. lia.
  - assert (Hnone : pending s = ∅).
    { apply map_eq. intros id. rewrite lookup_empty.
      destruct (pending s !! id) as [d|] eqn:Hd; [|reflexivity].
      destruct (Hinv id d Hd) as [-> _]. congruence. }
    rewrite Hnone, map_size_empty. lia.
Qed.

(** X11. After [closeToolTip] the tip is closed and no timer is pending, and
    it stays closed until the next hover: a timer set before the close cannot
    open it. *)
Theorem closed_until_hover (dev : Device) es es' :
  forallb (fun e => negb (isHover e)) es' = true ->
  open (run dev (handle dev (run dev (mounted time0) es) CloseToolTip) es') =
    false /\
  pending (run dev (handle dev (run dev (mounted time0) es) CloseToolTip) es') =
    ∅.
Proof.
  intros Hes'.
  apply closed_idle; [reflexivity | | exact Hes'].
  simpl. apply (cleared_empty dev).
  apply single_pending_run. apply single_pending_mounted.
Qed.

(** X12. The cleanup on unmount leaves no timer pending, so that no timer
    callback runs, and [setOpen] is not called, after the unmount. *)
Theorem no_update_after_unmount (dev : Device) es (ids : list Z) :
  pending (handle dev (run dev (mounted time0) es) Unmount) = ∅ /\
  run dev (handle dev (run dev (mounted time0) es) Unmount)
    (map TimerFires ids) =
  handle dev (run dev (mounted time0) es) Unmount.
Proof.
  assert (Hpending :
            pending (handle dev (run dev (mounted time0) es) Unmount) = ∅).
  { simpl. apply (cleared_empty dev).
    apply single_pending_run. apply single_pending_mounted. }
  split; [exact Hpending|].
  apply fires_idle. exact Hpending.
Qed.

(** X13. A second hover restarts the delay: the timer of the first hover is
    cleared and does nothing when its time comes, and the timer of the second
    hover opens the tip. *)
Theorem hover_restarts_delay (dev : Device) s (id1 id2 : Z) (t1 t2 : Time) :
  id1 <> id2 ->
  handle dev (handle dev (handle dev s (Hover id1 t1)) (Hover id2 t2))
    (TimerFires id1) =
  handle dev (handle dev s (Hover id1 t1)) (Hover id2 t2) /\
  open (handle dev (handle dev (handle dev s (Hover id1 t1)) (Hover id2 t2))
          (TimerFires id2)) = true.
Proof.
  intros Hne. simpl. unfold clearTimeout. split.
  - rewrite lookup_insert_ne by congruence.
    rewrite lookup_delete_eq. reflexivity.
  - rewrite lookup_insert_eq. reflexivity.
Qed.

End TimerFacts.

Lemma closed_until_hover_witness :
  open (run touchPointerDevice
          (handle touchPointerDevice
             (run touchPointerDevice (mounted 0) [Hover 7 15])
             CloseToolTip)
          [TimerFires 7; Unmount]) = false.
Proof.
  apply (proj1 (@closed_until_hover Z 0 touchPointerDevice [Hover 7 15]
                  [TimerFires 7; Unmount] eq_refl)).
Defined.

Lemma hover_restarts_delay_witness :
  open (handle touchOnlyDevice
          (handle touchOnlyDevice
             (handle touchOnlyDevice (mounted 0) (Hover 7 15)) (Hover 8 40))
          (TimerFires 8)) = true.
Proof.
  apply (proj2 (@hover_restarts_delay Z touchOnlyDevice (mounted 0) 7 8 15 40
                  ltac:(discriminate))).
Defined.

End PressTipFacts.
